(** * SpellChecker.js: a shallow embedding of the spelling corrector

    The module [src/components/SpellChecker.js] exports [getCorrection],
    which suggests a single-word correction for a token, using a membership
    predicate [hasWord] or a lazily loaded word set.  This file embeds
    [getCorrection], [levenshtein], [repeatVariants] and [preserveCase] and
    proves the properties of the specification about them.

    Strings are lists of UTF-16 code units.  The modelled code units are
    those of Latin-1 (U+0000 to U+00FF, a byte each) and the three further
    ones that the case maps of JavaScript reach from them: U+0178 (the
    upper case of U+00FF), U+039C (the upper case of U+00B5 and of U+03BC)
    and U+03BC (the lower case of U+039C).  This set is closed under
    [toLowerCase] and [toUpperCase], which are modelled exactly on it,
    following the Unicode case mapping JavaScript uses (U+00DF upper-cases
    to the two characters "SS").
    A JS [Set] is an insertion-ordered list without duplicates. *)

From Stdlib Require Import Ascii String List Arith Lia Bool.
Import ListNotations.

Inductive char : Set :=
| Latin1 (a : ascii)   (* U+0000 .. U+00FF *)
| U0178                (* LATIN CAPITAL LETTER Y WITH DIAERESIS *)
| U039C                (* GREEK CAPITAL LETTER MU *)
| U03BC.               (* GREEK SMALL LETTER MU *)

Definition char_dec (x y : char) : {x = y} + {x <> y}.
Proof. decide equality; apply ascii_dec. Defined.

Definition str := list char.

(** String literals of the examples (7-bit text). *)
Definition s (x : string) : str := map Latin1 (list_ascii_of_string x).
Arguments s x%_string.

Definition str_eqb (a b : str) : bool :=
  if list_eq_dec char_dec a b then true else false.

(** Latin-1 characters by code. *)
Definition L1 (n : nat) : char := Latin1 (ascii_of_nat n).
Definition space : char := L1 32.
Definition sharp_s : char := L1 223.   (* U+00DF *)
Definition micro : char := L1 181.     (* U+00B5 *)

(** ** Case mapping: [String.prototype.toLowerCase] / [toUpperCase]

    On Latin-1, [toLowerCase] maps A-Z and U+00C0-U+00DE (except U+00D7) 32
    code points up; [toUpperCase] maps a-z and U+00E0-U+00FE (except
    U+00F7) 32 down, U+00B5 to U+039C, U+00DF to "SS" and U+00FF to
    U+0178.  No character of the set needs a context-dependent mapping. *)

Definition char_lower (c : char) : char :=
  match c with
  | Latin1 a =>
      let n := nat_of_ascii a in
      if ((65 <=? n) && (n <=? 90)) || ((192 <=? n) && (n <=? 222) && negb (n =? 215))
      then L1 (n + 32) else c
  | U0178 => L1 255
  | U039C => U03BC
  | U03BC => U03BC
  end.

Definition char_upper (c : char) : str :=
  match c with
  | Latin1 a =>
      let n := nat_of_ascii a in
      if ((97 <=? n) && (n <=? 122)) || ((224 <=? n) && (n <=? 254) && negb (n =? 247))
      then [L1 (n - 32)]
      else if n =? 181 then [U039C]
      else if n =? 223 then [L1 83; L1 83]
      else if n =? 255 then [U0178]
      else [c]
  | U0178 => [U0178]
  | U039C => [U039C]
  | U03BC => [U039C]
  end.

Definition toLowerCase (w : str) : str := map char_lower w.
Definition toUpperCase (w : str) : str := flat_map char_upper w.

(** ** JS [Set] with insertion order *)

Definition set_add (st : list str) (x : str) : list str :=
  if existsb (str_eqb x) st then st else st ++ [x].

(** [for (const v of xs) set.add(v)], starting from the set [st]. *)
Definition set_add_all (st : list str) (xs : list str) : list str :=
  fold_left set_add xs st.

(** ** [levenshtein]: the dynamic-programming table, row by row

    Row [i] of [dp] is a list of [b.length + 1] numbers.  [fill_row x b prev
    left] computes the cells [1..b.length] of the row for the character
    [x = a[i-1]]: [prev] is row [i-1] from column [j-1] on, [left] is the cell
    [dp[i][j-1]] just computed. *)

Section Levenshtein.
Context {A : Type} (eq_dec : forall x y : A, {x = y} + {x <> y}).

Definition cost (x y : A) : nat := if eq_dec x y then 0 else 1.

Fixpoint fill_row (x : A) (b : list A) (prev : list nat) (left : nat)
  : list nat :=
  match b, prev with
  | y :: b', d :: ((u :: _) as prev') =>
      let c := Nat.min (Nat.min (u + 1) (left + 1)) (d + cost x y) in
      c :: fill_row x b' prev' c
  | _, _ => []
  end.

(** The loop over [i = 1 .. a.length]; the row [i] starts with [dp[i][0] = i]. *)
Fixpoint dp_rows (a b : list A) (row : list nat) (i : nat) : list nat :=
  match a with
  | [] => row
  | x :: a' => dp_rows a' b (i :: fill_row x b row i) (S i)
  end.

Definition levenshtein (a b : list A) : nat :=
  nth (length b) (dp_rows a b (seq 0 (S (length b))) 1) 0.

End Levenshtein.

(** ** [repeatVariants]

    A run is [{ ch, len }].  [run_len c w] is the inner [while] loop: the
    number of leading characters of [w] equal to [c]; the outer loop emits
    the run starting at [i] and continues at [j = i + len].  Each iteration
    consumes at least one character, so [word.length] iterations suffice. *)

Record run := mkRun { ch : char; len : nat }.

Fixpoint run_len (c : char) (w : str) : nat :=
  match w with
  | d :: w' => if char_dec d c then S (run_len c w') else 0
  | [] => 0
  end.

Fixpoint runs_fuel (fuel : nat) (w : str) : list run :=
  match fuel, w with
  | S f, c :: rest =>
      let l := S (run_len c rest) in
      mkRun c l :: runs_fuel f (skipn (l - 1) rest)
  | _, _ => []
  end.

Definition runs (word : str) : list run := runs_fuel (length word) word.

(** [backtrack(idx, acc)]: the strings it passes to [variants.add], in order. *)
Fixpoint backtrack (rs : list run) (acc : str) : list str :=
  match rs with
  | [] => [acc]
  | r :: rs' =>
      if len r =? 1 then backtrack rs' (acc ++ [ch r])
      else backtrack rs' (acc ++ [ch r]) ++ backtrack rs' (acc ++ [ch r; ch r])
  end.

Definition repeatVariants (word : str) : list str :=
  set_add_all [] (backtrack (runs word) []).

(** ** Candidate generation (lines 41-64 of [getCorrection]) *)

Definition alphabet : str := s "abcdefghijklmnopqrstuvwxyz".

(** [lower.slice(0, i) + lower.slice(i + 1)] for [i] in [0, lower.length). *)
Definition deletions (lower : str) : list str :=
  map (fun i => firstn i lower ++ skipn (S i) lower) (seq 0 (length lower)).

(** [lower.slice(0, i) + ch + lower.slice(i)] for [i] in [0, lower.length]. *)
Definition insertions (lower : str) : list str :=
  flat_map (fun i => map (fun c => firstn i lower ++ c :: skipn i lower) alphabet)
    (seq 0 (S (length lower))).

(** [ch !== lower[i]]: [i < lower.length], so [lower[i]] is a character. *)
Definition substitutions (lower : str) : list str :=
  flat_map (fun i =>
      flat_map (fun c =>
          if char_dec c (nth i lower space) then []
          else [firstn i lower ++ c :: skipn (S i) lower]) alphabet)
    (seq 0 (length lower)).

Definition candidates (lower : str) : list str :=
  set_add_all (set_add_all (set_add_all (set_add_all []
    (repeatVariants lower)) (deletions lower)) (insertions lower))
    (substitutions lower).

(** [candidates.forEach]: skip [""], keep the strings [isWord] accepts. *)
Definition hits (isWord : str -> bool) (cands : list str) : list str :=
  filter (fun c => match c with [] => false | _ => isWord c end) cands.

(** The selection loop; [bestScore = Infinity] is [None]. *)
Definition lt_score (d : nat) (bestScore : option nat) : bool :=
  match bestScore with None => true | Some b => d <? b end.

Definition select_step (lower : str) (st : option str * option nat) (h : str)
  : option str * option nat :=
  let d := levenshtein char_dec lower h in
  if lt_score d (snd st) then (Some h, Some d) else st.

Definition pick_best (lower : str) (hs : list str) : option str :=
  fst (fold_left (select_step lower) hs (None, None)).

(** ** [preserveCase]

    [original[0]] is truthy exactly when [original] is not empty;
    [corrected[0].toUpperCase()] may be longer than one character. *)

Definition preserveCase (original corrected : str) : str :=
  match corrected with
  | [] => original
  | c0 :: crest =>
      if str_eqb (toUpperCase original) original then toUpperCase corrected
      else match original with
           | o0 :: _ =>
               if str_eqb (char_upper o0) [o0] then char_upper c0 ++ crest
               else corrected
           | [] => corrected
           end
  end.

(** ** [getCorrection]

    The candidate generator is a parameter of the orchestrator, so that the
    early exit can be shown not to depend on it; the program uses
    [candidates].  [preserveCase(rawWord, null)] returns [rawWord]. *)

Definition correction_with (gen : str -> list str) (isWord : str -> bool)
    (rawWord : str) : str :=
  match rawWord with
  | [] => rawWord
  | _ =>
      let lower := toLowerCase rawWord in
      if isWord lower then rawWord
      else
        match hits isWord (gen lower) with
        | [] => rawWord
        | hs =>
            match pick_best lower hs with
            | Some best => preserveCase rawWord best
            | None => preserveCase rawWord []
            end
        end
  end.

(** The module-level cache [__wordsDataset]: [None] is [null]. *)
Definition dataset := option (list str).

Definition isWord_of (hasWord : option (str -> bool)) (cache : dataset)
    (w : str) : bool :=
  match hasWord with
  | Some h => h w
  | None =>
      match cache with
      | Some ws => existsb (str_eqb w) ws
      | None => false
      end
  end.

Record outcome := mkOutcome {
  result : str;
  cache_after : dataset;
  load_started : bool  (* [loadWordsDataset()] was kicked off *)
}.

(** [getCorrection(rawWord, hasWord)] run in a state where the cache is
    [cache] and [typeof fetch === "function"] is [fetch_ok].  The load that
    is kicked off writes the cache only later, asynchronously. *)
Definition getCorrection (cache : dataset) (fetch_ok : bool) (rawWord : str)
    (hasWord : option (str -> bool)) : outcome :=
  match rawWord with
  | [] => mkOutcome rawWord cache false
  | _ =>
      let kick := match hasWord, cache with
                  | None, None => fetch_ok
                  | _, _ => false
                  end in
      mkOutcome (correction_with candidates (isWord_of hasWord cache) rawWord)
        cache kick
  end.

(** The specification's [correct(rawWord, oracle)]: [getCorrection] with the
    oracle passed as [hasWord]. *)
Definition correct (rawWord : str) (oracle : str -> bool) : str :=
  result (getCorrection None false rawWord (Some oracle)).

Definition dict (ws : list str) : str -> bool :=
  fun w => existsb (str_eqb w) ws.


(** ** [loadWordsDataset]

    [text.split(/\r?\n/)]: scanning left to right, a ["\r\n"] or a ["\n"]
    ends the current line; [cur] is the line read so far. *)

Definition LF : char := L1 10.
Definition CR : char := L1 13.

Fixpoint split_lines_from (w cur : str) : list str :=
  match w with
  | [] => [cur]
  | c :: rest =>
      if char_dec c LF then cur :: split_lines_from rest []
      else if char_dec c CR then
        match rest with
        | d :: rest' =>
            if char_dec d LF then cur :: split_lines_from rest' []
            else split_lines_from rest (cur ++ [c])
        | [] => split_lines_from rest (cur ++ [c])
        end
      else split_lines_from rest (cur ++ [c])
  end.

Definition split_lines (text : str) : list str := split_lines_from text [].

(** [String.prototype.trim]: among the modelled characters, tab, line feed,
    vertical tab, form feed, carriage return, space and no-break space
    (U+00A0) are white space or line terminators. *)
Definition is_ws (c : char) : bool :=
  match c with
  | Latin1 a => let n := nat_of_ascii a in
      ((9 <=? n) && (n <=? 13)) || (n =? 32) || (n =? 160)
  | _ => false
  end.

Fixpoint drop_ws (w : str) : str :=
  match w with
  | c :: r => if is_ws c then drop_ws r else w
  | [] => []
  end.

Definition trim (w : str) : str := rev (drop_ws (rev (drop_ws w))).

(** [new Set(text.split(..).map((w) => w.trim().toLowerCase()).filter(Boolean))] *)
Definition parse_words (text : str) : list str :=
  set_add_all []
    (filter (fun w => match w with [] => false | _ => true end)
       (map (fun l => toLowerCase (trim l)) (split_lines text))).

(** The network is the function [fetch]: [fetch url] is the text of the
    response, or [None] when [fetch] or [res.text()] rejects (the promise of
    [loadWordsDataset] then rejects and the cache is not written).  A [Set]
    object is truthy even when empty, so any loaded set is returned as is. *)
Record load_outcome := mkLoad {
  loaded : option (list str);   (* [None]: the returned promise rejects *)
  cache_after_load : dataset;
  fetched : bool
}.

Definition loadWordsDataset (fetch : str -> option str) (url : str)
    (cache : dataset) : load_outcome :=
  match cache with
  | Some ws => mkLoad (Some ws) cache false
  | None =>
      match fetch url with
      | Some text => let ws := parse_words text in mkLoad (Some ws) (Some ws) true
      | None => mkLoad None cache true
      end
  end.

Definition default_url : str := s "/words.txt".

(** A word list in the file format: words separated by [sep]. *)
Fixpoint join_lines (sep : str) (ws : list str) : str :=
  match ws with
  | [] => []
  | [w] => w
  | w :: ws' => w ++ sep ++ join_lines sep ws'
  end.

(** ** Specification-side notions *)

Section EditDistance.
Context {A : Type} (eq_dec : forall x y : A, {x = y} + {x <> y}).

(** One single-character edit: a deletion, an insertion or a substitution. *)
Inductive edit_step : list A -> list A -> Prop :=
| es_del u x v : edit_step (u ++ x :: v) (u ++ v)
| es_ins u y v : edit_step (u ++ v) (u ++ y :: v)
| es_sub u x y v : x <> y -> edit_step (u ++ x :: v) (u ++ y :: v).

(** [edits a b n]: [a] is turned into [b] by [n] single-character edits. *)
Inductive edits : list A -> list A -> nat -> Prop :=
| edits_refl w : edits w w 0
| edits_cons w1 w2 w3 n : edit_step w1 w2 -> edits w2 w3 n -> edits w1 w3 (S n).

(** Auxiliary: the recurrence of the table on suffixes, and edit scripts
    read from left to right (alignments). *)
Fixpoint ld (a b : list A) : nat :=
  match a with
  | [] => length b
  | x :: a' =>
      (fix ld_x (b : list A) : nat :=
         match b with
         | [] => S (length a')
         | y :: b' =>
             Nat.min (ld a' b + 1) (Nat.min (ld_x b' + 1) (ld a' b' + cost eq_dec x y))
         end) b
  end.

Inductive align : list A -> list A -> nat -> Prop :=
| al_nil : align [] [] 0
| al_del x a b n : align a b n -> align (x :: a) b (S n)
| al_ins y a b n : align a b n -> align a (y :: b) (S n)
| al_sub x y a b n : align a b n -> align (x :: a) (y :: b) (n + cost eq_dec x y).

(** The distance between the prefixes, and a row of the table as it should be:
    [rowof a p rest] lists the distances from [a] to [p], [p ++ firstn 1 rest],
    ..., [p ++ rest]. *)
Definition D (a b : list A) : nat := ld (rev a) (rev b).

Fixpoint rowof (a p rest : list A) : list nat :=
  D a p :: match rest with
           | [] => []
           | y :: r => rowof a (p ++ [y]) r
           end.

End EditDistance.

(** Maximal runs and the run-collapse variants, as the specification words
    them: the word is cut into maximal runs of one repeated character, and
    every run of length > 1 is written with length 1 or 2. *)

Fixpoint expand (rs : list run) : str :=
  match rs with
  | [] => []
  | r :: rs' => repeat (ch r) (len r) ++ expand rs'
  end.

Fixpoint adjacent_distinct (rs : list run) : Prop :=
  match rs with
  | r1 :: ((r2 :: _) as rs') => ch r1 <> ch r2 /\ adjacent_distinct rs'
  | _ => True
  end.

Definition maximal_runs (w : str) (rs : list run) : Prop :=
  expand rs = w /\ Forall (fun r => 1 <= len r) rs /\ adjacent_distinct rs.

Definition run_choice (r : run) (k : nat) : Prop :=
  (len r = 1 /\ k = 1) \/ (1 < len r /\ (k = 1 \/ k = 2)).

Fixpoint build (rs : list run) (ks : list nat) : str :=
  match rs, ks with
  | r :: rs', k :: ks' => repeat (ch r) k ++ build rs' ks'
  | _, _ => []
  end.

Definition run_variant (w v : str) : Prop :=
  exists rs ks, maximal_runs w rs /\ Forall2 run_choice rs ks /\ v = build rs ks.

(** An upper-case letter: among the modelled characters, exactly those that
    [toLowerCase] changes. *)
Definition is_upper_letter (c : char) : bool :=
  if char_dec (char_lower c) c then false else true.

(** The Case Preserver as the specification words it (checked in order:
    all-caps original, first character an upper-case letter, otherwise). *)
Definition spec_applyCase (original corrected : str) : str :=
  if str_eqb (toUpperCase original) original then toUpperCase corrected
  else match original, corrected with
       | o0 :: _, c0 :: crest =>
           if is_upper_letter o0 then char_upper c0 ++ crest else corrected
       | _, _ => corrected
       end.

(** A character [toLowerCase] leaves alone. *)
Definition lowfix (c : char) : Prop := char_lower c = c.

(** A character other than U+00DF and U+00B5, the two whose upper case does
    not lower-case back to them. *)
Definition case_stable (c : char) : Prop := c <> sharp_s /\ c <> micro.

Definition case_stableb (c : char) : bool :=
  if char_dec c sharp_s then false else if char_dec c micro then false else true.

(** * Proofs *)

Lemma str_eqb_eq (a b : str) : str_eqb a b = true <-> a = b.
Proof.
  unfold str_eqb; destruct (list_eq_dec char_dec a b); split; congruence.
Qed.

(** ** The edit distance *)

Section EditDistanceProofs.
Context {A : Type} (eq_dec : forall x y : A, {x = y} + {x <> y}).


Lemma cost_le_1 x y : cost eq_dec x y <= 1.
Proof. unfold cost; destruct (eq_dec x y); lia. Qed.

Lemma cost_sym x y : cost eq_dec x y = cost eq_dec y x.
Proof.
  unfold cost; destruct (eq_dec x y), (eq_dec y x); congruence.
Qed.

Lemma cost_refl x : cost eq_dec x x = 0.
Proof. unfold cost; destruct (eq_dec x x); congruence. Qed.

Lemma ld_nil_r a : ld eq_dec a [] = length a.
Proof. destruct a; reflexivity. Qed.

Lemma ld_cons x a y b :
  ld eq_dec (x :: a) (y :: b) =
  Nat.min (ld eq_dec a (y :: b) + 1) (Nat.min (ld eq_dec (x :: a) b + 1) (ld eq_dec a b + cost eq_dec x y)).
Proof. reflexivity. Qed.

Lemma al_sub' x y a b n m :
  align eq_dec a b n -> m = n + cost eq_dec x y -> align eq_dec (x :: a) (y :: b) m.
Proof. intros H ->; now constructor. Qed.

Lemma ld_le_align a b n : align eq_dec a b n -> ld eq_dec a b <= n.
Proof.
  induction 1 as [|x a b n _ IH|y a b n _ IH|x y a b n _ IH].
  - reflexivity.
  - destruct b as [|y b].
    + rewrite ld_nil_r in *; simpl; lia.
    + rewrite ld_cons; lia.
  - destruct a as [|x a].
    + simpl in *; lia.
    + rewrite ld_cons; lia.
  - rewrite ld_cons; lia.
Qed.

Lemma align_ld a b : align eq_dec a b (ld eq_dec a b).
Proof.
  revert b; induction a as [|x a IHa]; intros b.
  - induction b as [|y b IHb]; simpl; constructor; auto.
  - induction b as [|y b IHb].
    + rewrite ld_nil_r; simpl; constructor.
      specialize (IHa []); now rewrite ld_nil_r in IHa.
    + rewrite ld_cons.
      destruct (Nat.min_dec (ld eq_dec a (y :: b) + 1)
                  (Nat.min (ld eq_dec (x :: a) b + 1) (ld eq_dec a b + cost eq_dec x y))) as [E|E];
        rewrite E.
      * rewrite Nat.add_1_r; apply al_del; auto.
      * destruct (Nat.min_dec (ld eq_dec (x :: a) b + 1) (ld eq_dec a b + cost eq_dec x y)) as [E'|E'];
          rewrite E'.
        -- rewrite Nat.add_1_r; apply al_ins; auto.
        -- now constructor.
Qed.

Lemma align_refl a : align eq_dec a a 0.
Proof.
  induction a as [|x a IH]; [constructor|].
  apply al_sub' with (n := 0); [exact IH|]. now rewrite cost_refl.
Qed.

Lemma align_sym a b n : align eq_dec a b n -> align eq_dec b a n.
Proof.
  induction 1 as [| | |x y a b n _ IH]; try (now constructor).
  apply al_sub' with (n := n); [assumption|]. now rewrite cost_sym.
Qed.

Lemma align_del_right a b n :
  align eq_dec a b n -> forall u x v, b = u ++ x :: v ->
  exists m, align eq_dec a (u ++ v) m /\ m <= S n.
Proof.
  induction 1 as [|x' a b n H IH|y a b n H IH|x' y a b n H IH];
    intros u x v Eb.
  - destruct u; discriminate.
  - destruct (IH u x v Eb) as (m & Hm & Le).
    exists (S m); split; [now constructor|lia].
  - destruct u as [|z u]; simpl in Eb; injection Eb as -> ->.
    + exists n; split; [assumption|lia].
    + destruct (IH u x v eq_refl) as (m & Hm & Le).
      exists (S m); split; [now constructor|lia].
  - destruct u as [|z u]; simpl in Eb; injection Eb as -> ->.
    + exists (S n); split; [now constructor|lia].
    + destruct (IH u x v eq_refl) as (m & Hm & Le).
      exists (m + cost eq_dec x' z); split; [now constructor|lia].
Qed.

Lemma align_ins_right a b n :
  align eq_dec a b n -> forall u y v, b = u ++ v ->
  exists m, align eq_dec a (u ++ y :: v) m /\ m <= S n.
Proof.
  induction 1 as [|x a b n H IH|z a b n H IH|x z a b n H IH];
    intros u y v Eb.
  - destruct u; [|discriminate]; destruct v; [|discriminate].
    exists 1; split; [repeat constructor|lia].
  - destruct (IH u y v Eb) as (m & Hm & Le).
    exists (S m); split; [now constructor|lia].
  - destruct u as [|w u]; simpl in Eb.
    + subst v; exists (S (S n)); split; [now repeat constructor|lia].
    + injection Eb as -> ->.
      destruct (IH u y v eq_refl) as (m & Hm & Le).
      exists (S m); split; [now constructor|lia].
  - destruct u as [|w u]; simpl in Eb.
    + subst v; exists (S (n + cost eq_dec x z)); split; [now repeat constructor|lia].
    + injection Eb as -> ->.
      destruct (IH u y v eq_refl) as (m & Hm & Le).
      exists (m + cost eq_dec x w); split; [now constructor|lia].
Qed.

Lemma align_sub_right a b n :
  align eq_dec a b n -> forall u x y v, b = u ++ x :: v ->
  exists m, align eq_dec a (u ++ y :: v) m /\ m <= S n.
Proof.
  induction 1 as [|x' a b n H IH|z a b n H IH|x' z a b n H IH];
    intros u x y v Eb.
  - destruct u; discriminate.
  - destruct (IH u x y v Eb) as (m & Hm & Le).
    exists (S m); split; [now constructor|lia].
  - destruct u as [|w u]; simpl in Eb; injection Eb as -> ->.
    + exists (S n); split; [now constructor|lia].
    + destruct (IH u x y v eq_refl) as (m & Hm & Le).
      exists (S m); split; [now constructor|lia].
  - destruct u as [|w u]; simpl in Eb; injection Eb as -> ->.
    + exists (n + cost eq_dec x' y); split; [now constructor|].
      pose proof (cost_le_1 x' y); lia.
    + destruct (IH u x y v eq_refl) as (m & Hm & Le).
      exists (m + cost eq_dec x' w); split; [now constructor|lia].
Qed.

Lemma align_step_right a b c n :
  align eq_dec a b n -> edit_step b c -> exists m, align eq_dec a c m /\ m <= S n.
Proof.
  intros H St; destruct St.
  - eapply align_del_right; eauto.
  - eapply align_ins_right; eauto.
  - eapply align_sub_right; eauto.
Qed.

Lemma edit_step_sym (a b : list A) : edit_step a b -> edit_step b a.
Proof. destruct 1; constructor; auto. Qed.

Lemma edits_align (a b : list A) n : edits a b n -> exists m, align eq_dec a b m /\ m <= n.
Proof.
  induction 1 as [w|w1 w2 w3 n St _ (m & Hm & Le)].
  - exists 0; split; [apply align_refl|lia].
  - apply align_sym in Hm.
    destruct (align_step_right _ _ _ _ Hm (edit_step_sym _ _ St)) as (m' & Hm' & Le').
    exists m'; split; [now apply align_sym|lia].
Qed.

Lemma ld_le_edits (a b : list A) n : edits a b n -> ld eq_dec a b <= n.
Proof.
  intros H; destruct (edits_align _ _ _ H) as (m & Hm & Le).
  apply ld_le_align in Hm; lia.
Qed.

Lemma edits_trans (a b c : list A) n m : edits a b n -> edits b c m -> edits a c (n + m).
Proof.
  induction 1; intros; simpl; [assumption|].
  econstructor; eauto.
Qed.

Lemma edits_one (a b : list A) : edit_step a b -> edits a b 1.
Proof. intros; econstructor; [eassumption|constructor]. Qed.

Lemma edit_step_cons (a b : list A) x : edit_step a b -> edit_step (x :: a) (x :: b).
Proof.
  destruct 1.
  - apply (es_del (x :: u)).
  - apply (es_ins (x :: u)).
  - apply (es_sub (x :: u)); assumption.
Qed.

Lemma edits_cons_both (a b : list A) x n : edits a b n -> edits (x :: a) (x :: b) n.
Proof.
  induction 1; econstructor; eauto using edit_step_cons.
Qed.

Lemma align_edits a b n : align eq_dec a b n -> edits a b n.
Proof.
  induction 1 as [|x a b n _ IH|y a b n _ IH|x y a b n _ IH].
  - constructor.
  - econstructor; [apply (es_del [])|exact IH].
  - rewrite <- Nat.add_1_r; eapply edits_trans; [exact IH|].
    apply edits_one, (es_ins []).
  - apply (edits_cons_both _ _ x) in IH.
    unfold cost; destruct (eq_dec x y) as [->|Ne].
    + now rewrite Nat.add_0_r.
    + rewrite Nat.add_1_r, <- Nat.add_1_r; eapply edits_trans; [exact IH|].
      apply edits_one, (es_sub []); assumption.
Qed.

Lemma edit_step_rev (a b : list A) : edit_step a b -> edit_step (rev a) (rev b).
Proof.
  destruct 1; rewrite !rev_app_distr; simpl; rewrite <- !app_assoc; simpl.
  - apply es_del.
  - apply es_ins.
  - apply es_sub; assumption.
Qed.

Lemma edits_rev (a b : list A) n : edits a b n -> edits (rev a) (rev b) n.
Proof.
  induction 1; econstructor; eauto using edit_step_rev.
Qed.


(** The table computed by [levenshtein] holds the distances of prefixes. *)

Lemma D_nil_l (p : list A) : D eq_dec [] p = length p.
Proof. unfold D; simpl; apply length_rev. Qed.

Lemma D_nil_r (a : list A) : D eq_dec a [] = length a.
Proof. unfold D; simpl; rewrite ld_nil_r; apply length_rev. Qed.

Lemma D_snoc (a p : list A) x y :
  D eq_dec (a ++ [x]) (p ++ [y]) =
  Nat.min (Nat.min (D eq_dec a (p ++ [y]) + 1) (D eq_dec (a ++ [x]) p + 1))
    (D eq_dec a p + cost eq_dec x y).
Proof.
  unfold D; rewrite !rev_app_distr; simpl; lia.
Qed.

Lemma rowof_hd (a p rest : list A) :
  rowof eq_dec a p rest =
  D eq_dec a p :: match rest with
                  | [] => []
                  | y :: r => rowof eq_dec a (p ++ [y]) r
                  end.
Proof. destruct rest; reflexivity. Qed.

Lemma fill_row_rowof (a : list A) x (rest p : list A) :
  fill_row eq_dec x rest (rowof eq_dec a p rest) (D eq_dec (a ++ [x]) p) =
  tl (rowof eq_dec (a ++ [x]) p rest).
Proof.
  revert p; induction rest as [|y r IH]; intros p; [reflexivity|].
  rewrite (rowof_hd a), (rowof_hd a (p ++ [y])), (rowof_hd (a ++ [x]) p).
  simpl fill_row; simpl tl.
  rewrite <- D_snoc, <- (rowof_hd a (p ++ [y])), IH.
  now rewrite (rowof_hd (a ++ [x]) (p ++ [y])).
Qed.

Lemma rowof_nil (p rest : list A) :
  rowof eq_dec [] p rest = seq (length p) (S (length rest)).
Proof.
  revert p; induction rest as [|y r IH]; intros p; simpl; rewrite D_nil_l;
    [reflexivity|].
  rewrite IH, length_app; simpl; now rewrite Nat.add_1_r.
Qed.

Lemma dp_rows_rowof (b a pre : list A) :
  dp_rows eq_dec a b (rowof eq_dec pre [] b) (S (length pre)) =
  rowof eq_dec (pre ++ a) [] b.
Proof.
  revert pre; induction a as [|x a IH]; intros pre; cbn [dp_rows].
  - now rewrite app_nil_r.
  - assert (E : S (length pre) :: fill_row eq_dec x b (rowof eq_dec pre [] b)
                                    (S (length pre)) = rowof eq_dec (pre ++ [x]) [] b).
    { replace (S (length pre)) with (D eq_dec (pre ++ [x]) [])
        by (rewrite D_nil_r, length_app; simpl; lia).
      rewrite fill_row_rowof, (rowof_hd (pre ++ [x]) [] b); reflexivity. }
    rewrite E.
    replace (S (S (length pre))) with (S (length (pre ++ [x])))
      by (rewrite length_app; simpl; lia).
    rewrite IH, <- app_assoc; reflexivity.
Qed.

Lemma nth_rowof (a p rest : list A) :
  nth (length rest) (rowof eq_dec a p rest) 0 = D eq_dec a (p ++ rest).
Proof.
  revert p; induction rest as [|y r IH]; intros p; simpl.
  - now rewrite app_nil_r.
  - rewrite IH, <- app_assoc; reflexivity.
Qed.

Lemma levenshtein_D (a b : list A) : levenshtein eq_dec a b = D eq_dec a b.
Proof.
  unfold levenshtein.
  change (seq 0 (S (length b))) with (seq (length (@nil A)) (S (length b))).
  rewrite <- (rowof_nil [] b).
  change 1 with (S (length (@nil A))).
  rewrite dp_rows_rowof, nth_rowof; reflexivity.
Qed.

(** The two halves of the characterisation. *)

Lemma levenshtein_reached (a b : list A) : edits a b (levenshtein eq_dec a b).
Proof.
  rewrite levenshtein_D; unfold D.
  rewrite <- (rev_involutive a), <- (rev_involutive b) at 1.
  apply edits_rev, align_edits, align_ld.
Qed.

Lemma levenshtein_least (a b : list A) n :
  edits a b n -> levenshtein eq_dec a b <= n.
Proof.
  intros H; rewrite levenshtein_D; unfold D.
  now apply ld_le_edits, edits_rev.
Qed.




End EditDistanceProofs.

(** ** JS [Set] insertion *)

Lemma in_set_add st x y : In y (set_add st x) <-> In y st \/ y = x.
Proof.
  unfold set_add; destruct (existsb (str_eqb x) st) eqn:E.
  - apply existsb_exists in E as (z & Hz & Ez); apply str_eqb_eq in Ez; subst z.
    split; [tauto|]; intros [H| ->]; assumption.
  - rewrite in_app_iff; simpl; intuition.
Qed.

Lemma in_set_add_all st xs y : In y (set_add_all st xs) <-> In y st \/ In y xs.
Proof.
  unfold set_add_all; revert st; induction xs as [|x xs IH]; intros st; simpl.
  - tauto.
  - rewrite IH, in_set_add; intuition.
Qed.

Lemma NoDup_set_add st x : NoDup st -> NoDup (set_add st x).
Proof.
  unfold set_add; intros H; destruct (existsb (str_eqb x) st) eqn:E; [exact H|].
  apply NoDup_app; [exact H|repeat constructor; simpl; tauto|].
  intros y Hy [->|[]].
  assert (existsb (str_eqb y) st = true) by
    (apply existsb_exists; exists y; split; [exact Hy|now apply str_eqb_eq]).
  congruence.
Qed.

Lemma NoDup_set_add_all st xs : NoDup st -> NoDup (set_add_all st xs).
Proof.
  unfold set_add_all; revert st; induction xs; intros st H; simpl;
    auto using NoDup_set_add.
Qed.

(** ** The runs of a word *)

Lemma runs_fuel_irrel f1 f2 w :
  length w <= f1 -> length w <= f2 -> runs_fuel f1 w = runs_fuel f2 w.
Proof.
  revert f2 w; induction f1 as [|f1 IH]; intros [|f2] [|c rest] H1 H2;
    simpl in *; try lia; try reflexivity.
  f_equal; apply IH; rewrite length_skipn; lia.
Qed.

Lemma runs_cons c rest :
  runs (c :: rest) =
  mkRun c (S (run_len c rest)) :: runs (skipn (run_len c rest) rest).
Proof.
  unfold runs; simpl; rewrite Nat.sub_0_r; f_equal.
  apply runs_fuel_irrel; rewrite ?length_skipn; lia.
Qed.

Lemma firstn_run_len c w : firstn (run_len c w) w = repeat c (run_len c w).
Proof.
  induction w as [|d w IH]; simpl; [reflexivity|].
  destruct (char_dec d c); simpl; [now subst; rewrite IH|reflexivity].
Qed.

Lemma skipn_run_len c w d w' :
  skipn (run_len c w) w = d :: w' -> d <> c.
Proof.
  induction w as [|e w IH]; simpl; [discriminate|].
  destruct (char_dec e c); simpl; [exact IH|congruence].
Qed.

Lemma run_len_repeat c n w : run_len c (repeat c n ++ w) = n + run_len c w.
Proof.
  induction n; simpl; [reflexivity|].
  destruct (char_dec c c); [now rewrite IHn|congruence].
Qed.

Lemma run_len_other c w :
  match w with d :: _ => d <> c | [] => True end -> run_len c w = 0.
Proof.
  destruct w as [|d w]; simpl; [reflexivity|].
  intros Ne; destruct (char_dec d c); congruence.
Qed.

Lemma runs_head d w' : exists k rs, runs (d :: w') = mkRun d k :: rs.
Proof. rewrite runs_cons; eauto. Qed.

Lemma runs_maximal w : maximal_runs w (runs w).
Proof.
  remember (length w) as n eqn:En.
  revert w En; induction n as [n IH] using lt_wf_ind; intros [|c rest] En.
  - repeat split; constructor.
  - rewrite runs_cons.
    set (k := run_len c rest).
    assert (Hlt : length (skipn k rest) < n) by (rewrite length_skipn; simpl in En; lia).
    destruct (IH _ Hlt _ eq_refl) as (Ex & Fa & Adj).
    repeat split.
    + simpl expand; simpl; rewrite Ex; unfold k; rewrite <- firstn_run_len.
      now rewrite firstn_skipn.
    + constructor; [simpl; lia|exact Fa].
    + destruct (skipn k rest) as [|d w'] eqn:Es.
      * exact I.
      * destruct (runs_head d w') as (j & rs & Er); rewrite Er in *.
        cbn [adjacent_distinct]; split; [simpl; intros ->; exact (skipn_run_len _ _ _ _ Es eq_refl)|exact Adj].
Qed.

Lemma maximal_runs_unique w rs : maximal_runs w rs -> rs = runs w.
Proof.
  revert w; induction rs as [|[c l] rs IH]; intros w (Ex & Fa & Adj);
    simpl in Ex; subst w; [reflexivity|].
  inversion Fa as [|? ? Hl Fa']; subst; simpl in Hl.
  destruct l as [|m]; [lia|]; simpl.
  rewrite runs_cons, run_len_repeat.
  assert (E0 : run_len c (expand rs) = 0).
  { apply run_len_other.
    destruct rs as [|[d j] rs]; [exact I|].
    inversion Fa'; subst; simpl in *; destruct j as [|j]; [lia|]; simpl.
    intros ->; apply (proj1 Adj); reflexivity. }
  rewrite E0, Nat.add_0_r.
  replace (skipn m (repeat c m ++ expand rs)) with (expand rs)
    by (rewrite skipn_app, skipn_all2, repeat_length, Nat.sub_diag by
          (rewrite repeat_length; lia); reflexivity).
  f_equal; apply IH; repeat split; [exact Fa'|].
  destruct rs; [exact I|exact (proj2 Adj)].
Qed.

(** ** The backtracking enumeration *)

Lemma in_backtrack rs acc v :
  Forall (fun r => 1 <= len r) rs ->
  (In v (backtrack rs acc) <->
   exists ks, Forall2 run_choice rs ks /\ v = acc ++ build rs ks).
Proof.
  revert acc; induction rs as [|r rs IH]; intros acc Fa; simpl.
  - split.
    + intros [<-|[]]; exists []; split; [constructor|now rewrite app_nil_r].
    + intros (ks & F2 & ->); inversion F2; subst; left; now rewrite app_nil_r.
  - inversion Fa as [|? ? Hr Fa']; subst.
    destruct (Nat.eqb_spec (len r) 1) as [E1|E1].
    + rewrite IH by exact Fa'; split.
      * intros (ks & F2 & ->); exists (1 :: ks); split.
        -- constructor; [left; tauto|exact F2].
        -- simpl; now rewrite <- app_assoc.
      * intros (ks & F2 & ->); inversion F2 as [|? k ? ks' Hc F2']; subst.
        destruct Hc as [[_ ->]|[Hl _]]; [|lia].
        exists ks'; split; [exact F2'|simpl; now rewrite <- app_assoc].
    + rewrite in_app_iff, !IH by exact Fa'; split.
      * intros [(ks & F2 & ->)|(ks & F2 & ->)].
        -- exists (1 :: ks); split; [constructor; [right; split; [lia|tauto]|exact F2]|].
           simpl; now rewrite <- app_assoc.
        -- exists (2 :: ks); split; [constructor; [right; split; [lia|tauto]|exact F2]|].
           simpl; now rewrite <- app_assoc.
      * intros (ks & F2 & ->); inversion F2 as [|? k ? ks' Hc F2']; subst.
        destruct Hc as [[Hl _]|[_ [->| ->]]]; [lia| |].
        -- left; exists ks'; split; [exact F2'|simpl; now rewrite <- app_assoc].
        -- right; exists ks'; split; [exact F2'|simpl; now rewrite <- app_assoc].
Qed.

(** ** Claims about [levenshtein] and [repeatVariants] *)

(** C3: [levenshtein(a, b)] is the classic edit distance: [a] is turned into
    [b] by that many single-character insertions, deletions and
    substitutions, and by no fewer. *)
Theorem levenshtein_edit_distance (a b : str) :
  edits a b (levenshtein char_dec a b) /\
  (forall n, edits a b n -> levenshtein char_dec a b <= n).
Proof.
  split; [apply levenshtein_reached|apply levenshtein_least].
Qed.

Lemma levenshtein_edit_distance_witness :
  edits (s "kitten") (s "sitting") 3 /\
  levenshtein char_dec (s "kitten") (s "sitting") <= 3.
Proof.
  assert (H : edits (s "kitten") (s "sitting") 3).
  { apply (edits_cons _ (s "sitten")).
    { apply (es_sub [] (Latin1 "k"%char) (Latin1 "s"%char) (s "itten")); discriminate. }
    apply (edits_cons _ (s "sittin")).
    { apply (es_sub (s "sitt") (Latin1 "e"%char) (Latin1 "i"%char) (s "n")); discriminate. }
    apply (edits_cons _ (s "sitting")).
    { apply (es_ins (s "sittin") (Latin1 "g"%char) []). }
    constructor. }
  split; [exact H|].
  exact (proj2 (levenshtein_edit_distance (s "kitten") (s "sitting")) 3 H).
Defined.

(** C4: the strings [repeatVariants(word)] yields are exactly those obtained
    from the maximal runs of [word] by writing each run of length > 1 with
    length 1 or 2 (runs of length 1 are kept); they are distinct; and with an
    oracle knowing only "cool", [correct("coooool")] is "cool". *)
Theorem repeatVariants_run_collapse :
  (forall w v, In v (repeatVariants w) <-> run_variant w v) /\
  (forall w, NoDup (repeatVariants w)) /\
  correct (s "coooool") (dict [s "cool"]) = s "cool".
Proof.
  split; [|split].
  - intros w v; unfold repeatVariants.
    rewrite in_set_add_all; simpl.
    destruct (runs_maximal w) as (Ex & Fa & Adj).
    rewrite in_backtrack by exact Fa; split.
    + intros [[]|(ks & F2 & ->)].
      exists (runs w), ks; repeat split; auto.
    + intros (rs & ks & Hm & F2 & ->); right.
      rewrite (maximal_runs_unique _ _ Hm) in F2 |- *.
      exists ks; split; [exact F2|reflexivity].
  - intros w; apply NoDup_set_add_all; constructor.
  - vm_compute; reflexivity.
Qed.

(** ** Case mapping on characters *)

Lemma char_lower_idem c : char_lower (char_lower c) = char_lower c.
Proof. destruct c as [[[] [] [] [] [] [] [] []]| | |]; reflexivity. Qed.

(** Upper-casing then lower-casing a character gives its lower case, except
    for U+00DF ("SS" lower-cases to "ss") and U+00B5 (U+039C lower-cases to
    U+03BC). *)
Lemma char_upper_lower c :
  case_stable c -> toLowerCase (char_upper c) = [char_lower c].
Proof.
  intros [H1 H2]; unfold sharp_s, micro, L1 in *.
  destruct c as [[[] [] [] [] [] [] [] []]| | |]; try reflexivity;
    exfalso; first [exact (H1 eq_refl)|exact (H2 eq_refl)].
Qed.

Lemma char_upper_nonempty c : char_upper c <> [].
Proof. destruct c as [[[] [] [] [] [] [] [] []]| | |]; discriminate. Qed.

Lemma toLowerCase_lowfix w : Forall lowfix (toLowerCase w).
Proof.
  apply Forall_forall; intros c Hc; unfold toLowerCase in Hc.
  apply in_map_iff in Hc as (d & <- & _); apply char_lower_idem.
Qed.

Lemma toLowerCase_id w : Forall lowfix w -> toLowerCase w = w.
Proof.
  induction 1 as [|c w Hc _ IH]; [reflexivity|].
  simpl; unfold lowfix in Hc; now rewrite Hc, IH.
Qed.

Lemma toLowerCase_app u v : toLowerCase (u ++ v) = toLowerCase u ++ toLowerCase v.
Proof. apply map_app. Qed.

Lemma toLowerCase_toUpperCase w :
  Forall case_stable w -> toLowerCase (toUpperCase w) = toLowerCase w.
Proof.
  induction 1 as [|c w Hc _ IH]; [reflexivity|].
  cbn [toUpperCase flat_map]; fold (toUpperCase w).
  rewrite toLowerCase_app, IH, char_upper_lower by exact Hc; reflexivity.
Qed.

(** Whatever case style [preserveCase] applies, lower-casing gives back a
    lower-case correction without U+00DF and U+00B5. *)
Lemma toLowerCase_preserveCase original b :
  b <> [] -> Forall lowfix b -> Forall case_stable b ->
  toLowerCase (preserveCase original b) = b.
Proof.
  intros Hne Hb Hs; destruct b as [|c0 crest]; [congruence|].
  unfold preserveCase.
  destruct (str_eqb (toUpperCase original) original).
  - now rewrite toLowerCase_toUpperCase, toLowerCase_id.
  - destruct original as [|o0 o']; [now apply toLowerCase_id|].
    destruct (str_eqb (char_upper o0) [o0]); [|now apply toLowerCase_id].
    inversion Hs as [|? ? Hs0 Hs']; inversion Hb as [|? ? Hb0 Hb']; subst.
    rewrite toLowerCase_app, char_upper_lower by exact Hs0.
    unfold lowfix in Hb0; rewrite Hb0, toLowerCase_id by exact Hb'; reflexivity.
Qed.

Lemma preserveCase_nonempty original b : b <> [] -> preserveCase original b <> [].
Proof.
  intros Hne; destruct b as [|c0 crest]; [congruence|]; unfold preserveCase.
  destruct (str_eqb (toUpperCase original) original).
  - cbn [toUpperCase flat_map]; intros E; apply app_eq_nil in E as [E _].
    exact (char_upper_nonempty c0 E).
  - destruct original as [|o0 o']; [discriminate|].
    destruct (str_eqb (char_upper o0) [o0]); [|discriminate].
    intros E; apply app_eq_nil in E as [E _]; exact (char_upper_nonempty c0 E).
Qed.

(** ** The candidates *)

Lemma Forall_firstn_skipn {A} (P : A -> Prop) n l :
  Forall P l -> Forall P (firstn n l) /\ Forall P (skipn n l).
Proof. intros H; rewrite <- (firstn_skipn n l) in H; now apply Forall_app in H. Qed.






Lemma in_build rs ks c :
  In c (build rs ks) -> exists r, In r rs /\ c = ch r.
Proof.
  revert ks; induction rs as [|r rs IH]; intros [|k ks]; simpl; try tauto.
  rewrite in_app_iff; intros [Hc|Hc].
  - apply repeat_spec in Hc; eauto.
  - destruct (IH _ Hc) as (r' & ? & ?); eauto.
Qed.

Lemma in_expand rs r : Forall (fun r => 1 <= len r) rs -> In r rs -> In (ch r) (expand rs).
Proof.
  induction 1 as [|r' rs Hr _ IH]; simpl; [tauto|].
  rewrite in_app_iff; intros [<-|Hin]; [left|right; auto].
  destruct (len r') as [|l]; [lia|left; reflexivity].
Qed.

Lemma repeatVariants_chars w v c :
  In v (repeatVariants w) -> In c v -> In c w.
Proof.
  intros Hv Hc; unfold repeatVariants in Hv.
  apply in_set_add_all in Hv as [[]|Hv].
  destruct (runs_maximal w) as (Ex & Fa & _).
  apply in_backtrack in Hv as (ks & _ & ->); [|exact Fa].
  destruct (in_build _ _ _ Hc) as (r & Hr & ->).
  rewrite <- Ex; now apply in_expand.
Qed.

Lemma alphabet_lowfix : Forall lowfix alphabet.
Proof. repeat constructor. Qed.

Lemma candidates_lowfix w c :
  Forall lowfix w -> In c (candidates w) -> Forall lowfix c.
Proof.
  intros Hw Hc; unfold candidates in Hc.
  pose proof Hw as Hw'; rewrite Forall_forall in Hw'.
  pose proof alphabet_lowfix as Ha; rewrite Forall_forall in Ha.
  rewrite !in_set_add_all in Hc.
  destruct Hc as [[[[[]|Hc]|Hc]|Hc]|Hc].
  - apply Forall_forall; intros x Hx; apply Hw'.
    eapply repeatVariants_chars; eauto.
  - unfold deletions in Hc; apply in_map_iff in Hc as (i & <- & _).
    apply Forall_app; split; apply Forall_firstn_skipn; auto.
  - unfold insertions in Hc; apply in_flat_map in Hc as (i & _ & Hc).
    apply in_map_iff in Hc as (x & <- & Hx).
    apply Forall_app; split; [apply Forall_firstn_skipn; auto|].
    constructor; [now apply Ha|apply Forall_firstn_skipn; auto].
  - unfold substitutions in Hc; apply in_flat_map in Hc as (i & _ & Hc).
    apply in_flat_map in Hc as (x & Hx & Hc).
    destruct (char_dec x (nth i w space)); [destruct Hc|].
    destruct Hc as [<-|[]].
    apply Forall_app; split; [apply Forall_firstn_skipn; auto|].
    constructor; [now apply Ha|apply Forall_firstn_skipn; auto].
Qed.

(** ** The selection loop *)

Lemma select_inv lower hs :
  (hs = [] /\ fold_left (select_step lower) hs (None, None) = (None, None)) \/
  exists pre b post, hs = pre ++ b :: post /\
    fold_left (select_step lower) hs (None, None) =
      (Some b, Some (levenshtein char_dec lower b)) /\
    Forall (fun h => levenshtein char_dec lower b < levenshtein char_dec lower h) pre /\
    Forall (fun h => levenshtein char_dec lower b <= levenshtein char_dec lower h) post.
Proof.
  induction hs as [|x hs IH] using rev_ind; [left; auto|right].
  rewrite fold_left_app; simpl.
  destruct IH as [[-> ->]|(pre & b & post & -> & -> & Hpre & Hpost)].
  - exists [], x, []; repeat split; constructor.
  - unfold select_step; simpl.
    destruct (Nat.ltb_spec (levenshtein char_dec lower x)
                (levenshtein char_dec lower b)) as [Lt|Ge].
    + exists (pre ++ b :: post), x, []; split; [now rewrite <- app_assoc|].
      split; [reflexivity|split; [|constructor]].
      apply Forall_app; split; [|constructor].
      * eapply Forall_impl; [|exact Hpre]; simpl; intros; lia.
      * lia.
      * eapply Forall_impl; [|exact Hpost]; simpl; intros; lia.
    + exists pre, b, (post ++ [x]); split; [now rewrite <- app_assoc|].
      split; [reflexivity|split; [exact Hpre|]].
      apply Forall_app; split; [exact Hpost|constructor; [lia|constructor]].
Qed.

Lemma pick_best_spec lower hs :
  hs <> [] ->
  exists pre b post, hs = pre ++ b :: post /\ pick_best lower hs = Some b /\
    Forall (fun h => levenshtein char_dec lower b < levenshtein char_dec lower h) pre /\
    Forall (fun h => levenshtein char_dec lower b <= levenshtein char_dec lower h) post.
Proof.
  intros Hne; unfold pick_best.
  destruct (select_inv lower hs) as [[E _]|(pre & b & post & E & Ef & Hpre & Hpost)];
    [congruence|].
  exists pre, b, post; rewrite Ef; auto.
Qed.


(** ** The orchestrator *)

Lemma in_hits oracle cands h :
  In h (hits oracle cands) <-> In h cands /\ h <> [] /\ oracle h = true.
Proof.
  unfold hits; rewrite filter_In; destruct h; intuition congruence.
Qed.


Lemma correct_eq rawWord oracle :
  correct rawWord oracle = correction_with candidates oracle rawWord.
Proof. destruct rawWord; reflexivity. Qed.

Lemma correct_early_exit rawWord oracle :
  rawWord <> [] -> oracle (toLowerCase rawWord) = true ->
  forall gen, correction_with gen oracle rawWord = rawWord.
Proof.
  intros Hne Ho gen; destruct rawWord as [|c r]; [congruence|].
  unfold correction_with; cbv beta iota zeta; now rewrite Ho.
Qed.

Lemma correct_cases rawWord oracle :
  correct rawWord oracle = rawWord \/
  (rawWord <> [] /\ oracle (toLowerCase rawWord) = false /\
   exists b, In b (hits oracle (candidates (toLowerCase rawWord))) /\
     pick_best (toLowerCase rawWord) (hits oracle (candidates (toLowerCase rawWord)))
       = Some b /\
     correct rawWord oracle = preserveCase rawWord b).
Proof.
  rewrite correct_eq; unfold correction_with.
  destruct rawWord as [|c r]; [left; reflexivity|]; cbv beta iota zeta.
  destruct (oracle (toLowerCase (c :: r))) eqn:Ho; [left; reflexivity|].
  destruct (hits oracle (candidates (toLowerCase (c :: r)))) as [|h hs] eqn:Eh;
    [left; reflexivity|].
  destruct (pick_best_spec (toLowerCase (c :: r)) (h :: hs))
    as (pre & b & post & Ehs & Eb & _ & _); [discriminate|].
  rewrite Eb; right; split; [discriminate|split; [reflexivity|]].
  exists b; split; [rewrite Ehs; apply in_app_iff; right; left; reflexivity|].
  split; reflexivity.
Qed.

Lemma hits_none cands : hits (fun _ => false) cands = [].
Proof. induction cands as [|[|c w] l IH]; simpl; auto. Qed.

(** ** Lengths and characters of the candidates *)

Lemma build_length rs ks :
  Forall2 run_choice rs ks -> length (build rs ks) <= length (expand rs).
Proof.
  induction 1 as [|r k rs ks Hc _ IH]; simpl; [lia|].
  rewrite !length_app, !repeat_length; unfold run_choice in Hc; lia.
Qed.

Lemma in_firstn_l {A} (x : A) n l : In x (firstn n l) -> In x l.
Proof. intros H; rewrite <- (firstn_skipn n l); apply in_or_app; now left. Qed.

Lemma in_skipn_l {A} (x : A) n l : In x (skipn n l) -> In x l.
Proof. intros H; rewrite <- (firstn_skipn n l); apply in_or_app; now right. Qed.

Lemma candidates_length w c : In c (candidates w) -> length c <= S (length w).
Proof.
  intros Hc; unfold candidates in Hc; rewrite !in_set_add_all in Hc.
  destruct Hc as [[[[[]|Hc]|Hc]|Hc]|Hc].
  - unfold repeatVariants in Hc; apply in_set_add_all in Hc as [[]|Hc].
    destruct (runs_maximal w) as (Ex & Fa & _).
    apply in_backtrack in Hc as (ks & F2 & ->); [|exact Fa].
    apply build_length in F2; rewrite Ex in F2; simpl; lia.
  - unfold deletions in Hc; apply in_map_iff in Hc as (i & <- & Hi).
    apply in_seq in Hi; rewrite length_app, length_firstn, length_skipn;
      simpl in Hi; lia.
  - unfold insertions in Hc; apply in_flat_map in Hc as (i & Hi & Hc).
    apply in_map_iff in Hc as (x & <- & _); apply in_seq in Hi.
    rewrite length_app, length_firstn; cbn [length]; rewrite length_skipn; lia.
  - unfold substitutions in Hc; apply in_flat_map in Hc as (i & Hi & Hc).
    apply in_seq in Hi; apply in_flat_map in Hc as (x & _ & Hc).
    destruct (char_dec x (nth i w space)); [destruct Hc|].
    destruct Hc as [<-|[]].
    rewrite length_app, length_firstn; cbn [length]; rewrite length_skipn;
      simpl in Hi; lia.
Qed.

Lemma candidates_chars w c x :
  In c (candidates w) -> In x c -> In x w \/ In x alphabet.
Proof.
  intros Hc Hx; unfold candidates in Hc; rewrite !in_set_add_all in Hc.
  destruct Hc as [[[[[]|Hc]|Hc]|Hc]|Hc].
  - left; eapply repeatVariants_chars; eauto.
  - unfold deletions in Hc; apply in_map_iff in Hc as (i & <- & _).
    apply in_app_or in Hx as [Hx|Hx]; left;
      eauto using in_firstn_l, in_skipn_l.
  - unfold insertions in Hc; apply in_flat_map in Hc as (i & _ & Hc).
    apply in_map_iff in Hc as (y & <- & Hy).
    apply in_app_or in Hx as [Hx|[<-|Hx]]; eauto using in_firstn_l, in_skipn_l.
  - unfold substitutions in Hc; apply in_flat_map in Hc as (i & _ & Hc).
    apply in_flat_map in Hc as (y & Hy & Hc).
    destruct (char_dec y (nth i w space)); [destruct Hc|].
    destruct Hc as [<-|[]].
    apply in_app_or in Hx as [Hx|[<-|Hx]]; eauto using in_firstn_l, in_skipn_l.
Qed.

(** ** Characters whose case round-trips *)

Lemma case_stable_b c : case_stable c <-> case_stableb c = true.
Proof.
  unfold case_stable, case_stableb.
  destruct (char_dec c sharp_s), (char_dec c micro); intuition congruence.
Qed.

(** A concrete string is case-stable by evaluation. *)
Ltac stable_tac :=
  apply Forall_forall; intros ? Hin; apply case_stable_b;
  repeat (destruct Hin as [<-|Hin]; [reflexivity|]); destruct Hin.

Lemma char_lower_stable c : case_stable c -> case_stable (char_lower c).
Proof.
  rewrite !case_stable_b.
  destruct c as [[[] [] [] [] [] [] [] []]| | |]; vm_compute; auto.
Qed.

Lemma toLowerCase_stable w : Forall case_stable w -> Forall case_stable (toLowerCase w).
Proof.
  intros H; unfold toLowerCase; apply Forall_map.
  eapply Forall_impl; [exact char_lower_stable|exact H].
Qed.

Lemma alphabet_stable : Forall case_stable alphabet.
Proof.
  apply Forall_forall; intros c Hc; apply case_stable_b.
  assert (E : forallb case_stableb alphabet = true) by (vm_compute; reflexivity).
  rewrite forallb_forall in E; exact (E c Hc).
Qed.

Lemma hit_stable rawWord c :
  Forall case_stable rawWord -> In c (candidates (toLowerCase rawWord)) ->
  Forall case_stable c.
Proof.
  intros Hw Hc; apply Forall_forall; intros x Hx.
  destruct (candidates_chars _ _ _ Hc Hx) as [Hx'|Hx'].
  - exact (proj1 (Forall_forall _ _) (toLowerCase_stable _ Hw) x Hx').
  - exact (proj1 (Forall_forall _ _) alphabet_stable x Hx').
Qed.

(** Every upper-case letter is its own upper case. *)
Lemma upper_letter_fixed c : is_upper_letter c = true -> char_upper c = [c].
Proof.
  destruct c as [[[] [] [] [] [] [] [] []]| | |]; vm_compute;
    intros H; first [reflexivity|discriminate H].
Qed.

Lemma char_upper_length c : case_stable c -> length (char_upper c) = 1.
Proof.
  intros [H1 H2]; unfold sharp_s, micro, L1 in *.
  destruct c as [[[] [] [] [] [] [] [] []]| | |]; try reflexivity;
    exfalso; first [exact (H1 eq_refl)|exact (H2 eq_refl)].
Qed.

Lemma toUpperCase_length w : Forall case_stable w -> length (toUpperCase w) = length w.
Proof.
  induction 1 as [|c w Hc _ IH]; [reflexivity|].
  cbn [toUpperCase flat_map]; fold (toUpperCase w).
  rewrite length_app, IH, char_upper_length by exact Hc; reflexivity.
Qed.

Lemma preserveCase_length original b :
  b <> [] -> Forall case_stable b -> length (preserveCase original b) = length b.
Proof.
  intros Hne Hs; destruct b as [|c0 crest]; [congruence|]; unfold preserveCase.
  destruct (str_eqb (toUpperCase original) original); [now apply toUpperCase_length|].
  destruct original as [|o0 o']; [reflexivity|].
  destruct (str_eqb (char_upper o0) [o0]); [|reflexivity].
  inversion Hs; subst; rewrite length_app, char_upper_length by assumption; reflexivity.
Qed.

(** ** Claims about [getCorrection] *)

(** C1: a non-empty token whose lower-case form the oracle knows is returned
    unchanged, whatever the candidate generator is (it is not consulted). *)
Theorem correct_known_word (rawWord : str) (oracle : str -> bool) :
  rawWord <> [] -> oracle (toLowerCase rawWord) = true ->
  (forall gen, correction_with gen oracle rawWord = rawWord) /\
  correct rawWord oracle = rawWord.
Proof.
  intros Hne Ho; split.
  - now apply correct_early_exit.
  - rewrite correct_eq; now apply correct_early_exit.
Qed.

Lemma correct_known_word_witness :
  s "Cool" <> [] /\ dict [s "cool"] (toLowerCase (s "Cool")) = true /\
  correct (s "Cool") (dict [s "cool"]) = s "Cool".
Proof.
  assert (H1 : s "Cool" <> []) by discriminate.
  assert (H2 : dict [s "cool"] (toLowerCase (s "Cool")) = true)
    by (vm_compute; reflexivity).
  split; [exact H1|split; [exact H2|]].
  exact (proj2 (correct_known_word (s "Cool") (dict [s "cool"]) H1 H2)).
Defined.

(** C2: an empty token, or a token with no Hit, is returned unchanged (in
    particular when the oracle rejects every string). *)
Theorem correct_no_forced_correction :
  (forall rawWord oracle,
     rawWord = [] \/ hits oracle (candidates (toLowerCase rawWord)) = [] ->
     correct rawWord oracle = rawWord) /\
  (forall rawWord, correct rawWord (fun _ => false) = rawWord).
Proof.
  assert (H : forall rawWord oracle,
             rawWord = [] \/ hits oracle (candidates (toLowerCase rawWord)) = [] ->
             correct rawWord oracle = rawWord).
  { intros rawWord oracle Hz.
    destruct (correct_cases rawWord oracle) as [E|(Hne & _ & b & Hb & _)];
      [exact E|].
    destruct Hz as [Hz|Hz]; [congruence|rewrite Hz in Hb; destruct Hb]. }
  split; [exact H|].
  intros rawWord; apply H; right; apply hits_none.
Qed.

Lemma correct_no_forced_correction_witness :
  hits (dict [s "cool"]) (candidates (toLowerCase (s "Xyz"))) = [] /\
  correct (s "Xyz") (dict [s "cool"]) = s "Xyz" /\
  correct [] (dict [s "cool"]) = [].
Proof.
  assert (H : hits (dict [s "cool"]) (candidates (toLowerCase (s "Xyz"))) = [])
    by (vm_compute; reflexivity).
  split; [exact H|split].
  - exact (proj1 correct_no_forced_correction (s "Xyz") (dict [s "cool"]) (or_intror H)).
  - exact (proj1 correct_no_forced_correction [] (dict [s "cool"]) (or_introl eq_refl)).
Defined.

(** C5: when there are Hits, [correct] returns (after case preservation) a Hit
    of minimal distance to the normalized token, the first such Hit in
    discovery order: every earlier Hit is strictly farther, every later one
    at least as far. *)
Theorem correct_first_minimum (rawWord : str) (oracle : str -> bool) :
  rawWord <> [] -> oracle (toLowerCase rawWord) = false ->
  hits oracle (candidates (toLowerCase rawWord)) <> [] ->
  exists pre best post,
    hits oracle (candidates (toLowerCase rawWord)) = pre ++ best :: post /\
    Forall (fun h => levenshtein char_dec (toLowerCase rawWord) best <
                     levenshtein char_dec (toLowerCase rawWord) h) pre /\
    Forall (fun h => levenshtein char_dec (toLowerCase rawWord) best <=
                     levenshtein char_dec (toLowerCase rawWord) h) post /\
    correct rawWord oracle = preserveCase rawWord best.
Proof.
  intros Hne Ho Hh.
  destruct (pick_best_spec (toLowerCase rawWord) _ Hh)
    as (pre & b & post & Ehs & Eb & Hpre & Hpost).
  exists pre, b, post; repeat split; auto.
  rewrite correct_eq; unfold correction_with.
  destruct rawWord as [|c r]; [congruence|]; cbv beta iota zeta.
  rewrite Ho.
  destruct (hits oracle (candidates (toLowerCase (c :: r)))) as [|h hs];
    [congruence|].
  now rewrite Eb.
Qed.

Lemma correct_first_minimum_witness :
  hits (dict [s "bot"; s "bat"]) (candidates (toLowerCase (s "bit"))) =
    [s "bat"; s "bot"] /\
  correct (s "bit") (dict [s "bot"; s "bat"]) = s "bat".
Proof.
  assert (H1 : s "bit" <> []) by discriminate.
  assert (H2 : dict [s "bot"; s "bat"] (toLowerCase (s "bit")) = false)
    by (vm_compute; reflexivity).
  assert (H3 : hits (dict [s "bot"; s "bat"]) (candidates (toLowerCase (s "bit"))) =
               [s "bat"; s "bot"]) by (vm_compute; reflexivity).
  split; [exact H3|].
  destruct (correct_first_minimum (s "bit") (dict [s "bot"; s "bat"]) H1 H2
              ltac:(rewrite H3; discriminate)) as (pre & b & post & E & Hpre & _ & ->).
  rewrite H3 in E.
  destruct pre as [|p1 [|p2 pre]]; simpl in E; injection E; intros; subst.
  - reflexivity.
  - inversion Hpre as [|? ? Hlt]; subst; vm_compute in Hlt; lia.
  - destruct pre; discriminate.
Defined.

(** C6 (code bug): the "Capitalized" branch tests that the first character
    of [original] equals its own upper-cased form, which holds for a digit
    too, so [preserveCase("1abc", "xyz")] is "Xyz" where the Case Preserver
    of the specification gives "xyz"; through [getCorrection], the token
    "1bc" with the word "abc" becomes "Abc". *)
Theorem preserveCase_digit_first :
  preserveCase (s "1abc") (s "xyz") = s "Xyz" /\
  spec_applyCase (s "1abc") (s "xyz") = s "xyz" /\
  correct (s "1bc") (dict [s "abc"]) = s "Abc".
Proof. split; [|split]; vm_compute; reflexivity. Qed.




(** C8: a non-empty token yields a non-empty result; every Hit is
    non-empty, so [preserveCase] never receives an empty correction from
    [correct]. *)
Theorem correct_nonempty (rawWord : str) (oracle : str -> bool) :
  rawWord <> [] ->
  correct rawWord oracle <> [] /\
  (forall h, In h (hits oracle (candidates (toLowerCase rawWord))) -> h <> []).
Proof.
  intros Hne; split.
  - destruct (correct_cases rawWord oracle) as [E|(_ & _ & b & Hb & _ & E)];
      rewrite E; [exact Hne|].
    apply preserveCase_nonempty; now apply in_hits in Hb.
  - intros h Hh; now apply in_hits in Hh.
Qed.

Lemma correct_nonempty_witness :
  correct (s "qqqq") (fun w => negb (str_eqb w (s "qqqq"))) <> [].
Proof.
  exact (proj1 (correct_nonempty (s "qqqq") _ ltac:(discriminate))).
Defined.




(** C10: with [hasWord] supplied, the result of [getCorrection] does not
    depend on the cached word set or on [fetch]; no load is started and the
    cache is left as it was. *)
Theorem getCorrection_cache_independent (c1 c2 : dataset) (f1 f2 : bool)
    (rawWord : str) (hasWord : str -> bool) :
  result (getCorrection c1 f1 rawWord (Some hasWord)) =
    result (getCorrection c2 f2 rawWord (Some hasWord)) /\
  load_started (getCorrection c1 f1 rawWord (Some hasWord)) = false /\
  load_started (getCorrection c2 f2 rawWord (Some hasWord)) = false /\
  cache_after (getCorrection c1 f1 rawWord (Some hasWord)) = c1 /\
  cache_after (getCorrection c2 f2 rawWord (Some hasWord)) = c2.
Proof. destruct rawWord; repeat split. Qed.

(** * Further properties of the module *)

(** ** More on the edit distance *)

Section EditDistanceMore.
Context {A : Type} (eq_dec : forall x y : A, {x = y} + {x <> y}).

Lemma edits_sym (a b : list A) n : edits a b n -> edits b a n.
Proof.
  induction 1 as [w|w1 w2 w3 n St _ IH]; [constructor|].
  rewrite <- Nat.add_1_r; eapply edits_trans; [exact IH|].
  apply edits_one, edit_step_sym, St.
Qed.

Lemma edit_step_length (a b : list A) :
  edit_step a b -> length a <= S (length b) /\ length b <= S (length a).
Proof. destruct 1; rewrite !length_app; simpl; lia. Qed.

Lemma edits_length (a b : list A) n :
  edits a b n -> length a <= length b + n /\ length b <= length a + n.
Proof.
  induction 1 as [w|w1 w2 w3 n St _ IH]; [lia|].
  apply edit_step_length in St; lia.
Qed.

Lemma ld_le_max (a b : list A) : ld eq_dec a b <= Nat.max (length a) (length b).
Proof.
  revert b; induction a as [|x a IHa]; intros b; [simpl; lia|].
  induction b as [|y b IHb]; [simpl; lia|].
  rewrite ld_cons; specialize (IHa b).
  pose proof (cost_le_1 eq_dec x y); simpl; lia.
Qed.

End EditDistanceMore.

(** ** Parsing the word list *)

Definition nows (c : char) : Prop := is_ws c = false.

Lemma is_ws_lower c : is_ws (char_lower c) = is_ws c.
Proof. destruct c as [[[] [] [] [] [] [] [] []]| | |]; reflexivity. Qed.

Lemma drop_ws_suffix w : exists p, w = p ++ drop_ws w.
Proof.
  induction w as [|c w (p & Hp)]; [exists []; reflexivity|simpl].
  destruct (is_ws c); [exists (c :: p); simpl; now f_equal|exists []; reflexivity].
Qed.

Lemma drop_ws_hd w : match drop_ws w with c :: _ => nows c | [] => True end.
Proof.
  induction w as [|c w IH]; simpl; [exact I|].
  destruct (is_ws c) eqn:E; [exact IH|exact E].
Qed.

Lemma drop_ws_nows w : Forall nows w -> drop_ws w = w.
Proof. destruct 1 as [|c w Hc _]; simpl; [reflexivity|now rewrite Hc]. Qed.

Lemma trim_nows w : Forall nows w -> trim w = w.
Proof.
  intros H; unfold trim; rewrite (drop_ws_nows w H), drop_ws_nows.
  - apply rev_involutive.
  - apply Forall_forall; intros x Hx; apply in_rev in Hx.
    now apply (proj1 (Forall_forall _ _) H).
Qed.

Lemma last_rev_hd {A} (u : list A) d : last (rev u) d = hd d u.
Proof. destruct u as [|x u]; [reflexivity|simpl; apply last_last]. Qed.

Lemma trim_ends l :
  trim l = [] \/ (nows (hd space (trim l)) /\ nows (last (trim l) space)).
Proof.
  unfold trim.
  set (v := drop_ws l); set (u := drop_ws (rev v)).
  destruct u as [|x u'] eqn:Eu; [left; reflexivity|right].
  split.
  - destruct (drop_ws_suffix (rev v)) as (p & Hp); fold u in Hp; rewrite Eu in Hp.
    apply (f_equal (@rev char)) in Hp; rewrite rev_involutive, rev_app_distr in Hp.
    pose proof (drop_ws_hd l) as Hv; fold v in Hv.
    rewrite Hp in Hv; simpl in Hv |- *.
    destruct (rev u') as [|y r]; simpl in *; exact Hv.
  - rewrite last_rev_hd; simpl.
    pose proof (drop_ws_hd (rev v)) as Hh; fold u in Hh; now rewrite Eu in Hh.
Qed.

Lemma last_map {A B} (f : A -> B) l d : last (map f l) (f d) = f (last l d).
Proof.
  induction l as [|x l IH]; [reflexivity|].
  destruct l as [|y l]; [reflexivity|]; exact IH.
Qed.

Lemma in_parse_words text w :
  In w (parse_words text) <->
  w <> [] /\ exists l, In l (split_lines text) /\ w = toLowerCase (trim l).
Proof.
  unfold parse_words; rewrite in_set_add_all, filter_In, in_map_iff; simpl.
  split.
  - intros [[]|((l & <- & Hl) & Hne)]; split; [|eauto].
    destruct (toLowerCase (trim l)); congruence.
  - intros (Hne & l & Hl & ->); right; split; [eauto|].
    destruct (toLowerCase (trim l)); congruence.
Qed.

Lemma split_from_nows w cur :
  Forall nows w -> split_lines_from w cur = [cur ++ w].
Proof.
  intros H; revert cur; induction H as [|c w Hc _ IH]; intros cur; simpl.
  - now rewrite app_nil_r.
  - destruct (char_dec c LF) as [->|_]; [discriminate Hc|].
    destruct (char_dec c CR) as [->|_]; [discriminate Hc|].
    rewrite IH, <- app_assoc; reflexivity.
Qed.

Lemma split_from_sep w rest cur sep :
  (sep = [LF] \/ sep = [CR; LF]) -> Forall nows w ->
  split_lines_from (w ++ sep ++ rest) cur = (cur ++ w) :: split_lines_from rest [].
Proof.
  intros Hs H; revert cur; induction H as [|c w Hc _ IH]; intros cur; simpl.
  - rewrite app_nil_r; destruct Hs as [->| ->]; reflexivity.
  - destruct (char_dec c LF) as [->|_]; [discriminate Hc|].
    destruct (char_dec c CR) as [->|_]; [discriminate Hc|].
    rewrite IH, <- app_assoc; reflexivity.
Qed.

Lemma split_join sep ws :
  (sep = [LF] \/ sep = [CR; LF]) -> ws <> [] -> Forall (Forall nows) ws ->
  split_lines (join_lines sep ws) = ws.
Proof.
  intros Hs Hne H; unfold split_lines.
  induction H as [|w ws Hw Hws IH]; [congruence|].
  destruct ws as [|w2 ws].
  - simpl; now rewrite split_from_nows.
  - change (join_lines sep (w :: w2 :: ws)) with (w ++ sep ++ join_lines sep (w2 :: ws)).
    rewrite split_from_sep by assumption.
    rewrite IH by discriminate; reflexivity.
Qed.

Lemma getCorrection_dataset cache f rawWord :
  result (getCorrection (Some cache) f rawWord None) =
  correct rawWord (fun w => existsb (str_eqb w) cache) /\
  load_started (getCorrection (Some cache) f rawWord None) = false /\
  cache_after (getCorrection (Some cache) f rawWord None) = Some cache.
Proof. rewrite correct_eq; destruct rawWord; repeat split. Qed.

(** ** Extra properties *)

(** X1 ([levenshtein]): the distance computed by the table is symmetric,
    [levenshtein a b = levenshtein b a]. *)
Theorem levenshtein_sym (a b : str) :
  levenshtein char_dec a b = levenshtein char_dec b a.
Proof.
  apply Nat.le_antisymm; apply levenshtein_least, edits_sym, levenshtein_reached.
Qed.

(** X2 ([levenshtein]): the distance is zero exactly on equal strings. *)
Theorem levenshtein_zero_iff (a b : str) :
  levenshtein char_dec a b = 0 <-> a = b.
Proof.
  split.
  - intros H; pose proof (levenshtein_reached char_dec a b) as R.
    rewrite H in R; inversion R; reflexivity.
  - intros ->; apply Nat.le_0_r, levenshtein_least, edits_refl.
Qed.

(** X3 ([levenshtein]): the triangle inequality,
    [levenshtein a c <= levenshtein a b + levenshtein b c]. *)
Theorem levenshtein_triangle (a b c : str) :
  levenshtein char_dec a c <= levenshtein char_dec a b + levenshtein char_dec b c.
Proof.
  apply levenshtein_least; eapply edits_trans; apply levenshtein_reached.
Qed.

(** X4 ([levenshtein]): the distance is at least the difference of the
    lengths and at most the larger length. *)
Theorem levenshtein_length_bounds (a b : str) :
  length a <= length b + levenshtein char_dec a b /\
  length b <= length a + levenshtein char_dec a b /\
  levenshtein char_dec a b <= Nat.max (length a) (length b).
Proof.
  pose proof (edits_length a b _ (levenshtein_reached char_dec a b)) as [H1 H2].
  repeat split; try assumption.
  rewrite levenshtein_D; unfold D.
  rewrite <- (length_rev a), <- (length_rev b); apply ld_le_max.
Qed.

(** X5 ([getCorrection]): for a token without U+00DF and U+00B5, the
    returned word is at most one character longer than the token. *)
Theorem correct_length (rawWord : str) (oracle : str -> bool) :
  Forall case_stable rawWord ->
  length (correct rawWord oracle) <= S (length rawWord).
Proof.
  intros Hst.
  destruct (correct_cases rawWord oracle) as [->|(_ & _ & b & Hb & _ & ->)]; [lia|].
  apply in_hits in Hb as (Hc & Hne & _).
  rewrite preserveCase_length by (first [exact Hne|exact (hit_stable _ _ Hst Hc)]).
  apply candidates_length in Hc; unfold toLowerCase in Hc; rewrite length_map in Hc.
  exact Hc.
Qed.

Lemma correct_length_witness :
  Forall case_stable (s "Helo") /\
  length (correct (s "Helo") (dict [s "hello"])) <= S (length (s "Helo")).
Proof.
  assert (H : Forall case_stable (s "Helo")) by stable_tac.
  split; [exact H|exact (correct_length _ _ H)].
Defined.

(** X6 ([getCorrection]): for a token without U+00DF and U+00B5, every
    character of the lower-cased result is a character of the lower-cased
    token or a letter of the alphabet ["a".."z"]. *)
Theorem correct_chars (rawWord : str) (oracle : str -> bool) (c : char) :
  Forall case_stable rawWord ->
  In c (toLowerCase (correct rawWord oracle)) ->
  In c (toLowerCase rawWord) \/ In c alphabet.
Proof.
  intros Hst.
  destruct (correct_cases rawWord oracle) as [->|(_ & _ & b & Hb & _ & ->)]; [now left|].
  apply in_hits in Hb as (Hc & Hne & _).
  rewrite toLowerCase_preserveCase.
  - intros Hx; exact (candidates_chars _ _ _ Hc Hx).
  - exact Hne.
  - eapply candidates_lowfix; [apply toLowerCase_lowfix|exact Hc].
  - exact (hit_stable _ _ Hst Hc).
Qed.

Lemma correct_chars_witness :
  Forall case_stable (s "Helo") /\
  In (Latin1 "l"%char) (toLowerCase (correct (s "Helo") (dict [s "hello"]))) /\
  (In (Latin1 "l"%char) (toLowerCase (s "Helo")) \/ In (Latin1 "l"%char) alphabet).
Proof.
  assert (E : toLowerCase (correct (s "Helo") (dict [s "hello"])) = s "hello")
    by (vm_compute; reflexivity).
  assert (H : In (Latin1 "l"%char) (toLowerCase (correct (s "Helo") (dict [s "hello"]))))
    by (rewrite E; simpl; auto).
  assert (Hs : Forall case_stable (s "Helo")) by stable_tac.
  split; [exact Hs|split; [exact H|exact (correct_chars _ _ _ Hs H)]].
Defined.

(** X7 ([getCorrection]): for a token without U+00DF and U+00B5, the
    returned word differs from the token only when the oracle accepts its
    lower-case form. *)
Theorem correct_known_or_unchanged (rawWord : str) (oracle : str -> bool) :
  Forall case_stable rawWord ->
  correct rawWord oracle = rawWord \/
  oracle (toLowerCase (correct rawWord oracle)) = true.
Proof.
  intros Hst.
  destruct (correct_cases rawWord oracle) as [->|(_ & _ & b & Hb & _ & ->)]; [now left|].
  right; apply in_hits in Hb as (Hc & Hne & Ho).
  rewrite toLowerCase_preserveCase; [exact Ho|exact Hne| |exact (hit_stable _ _ Hst Hc)].
  eapply candidates_lowfix; [apply toLowerCase_lowfix|exact Hc].
Qed.

Lemma correct_known_or_unchanged_witness :
  Forall case_stable (s "Helo") /\
  (correct (s "Helo") (dict [s "hello"]) = s "Helo" \/
   dict [s "hello"] (toLowerCase (correct (s "Helo") (dict [s "hello"]))) = true).
Proof.
  assert (H : Forall case_stable (s "Helo")) by stable_tac.
  split; [exact H|exact (correct_known_or_unchanged _ _ H)].
Defined.

(** X8 ([preserveCase]): when the first character of [original] is a
    cased letter (one that [toUpperCase] or [toLowerCase] changes), or
    [original] is empty, [preserveCase] agrees with the Case Preserver of
    the specification. *)
Theorem preserveCase_cased_first (original corrected : str) :
  corrected <> [] ->
  (forall o0 o', original = o0 :: o' -> char_upper o0 <> [o0] \/ char_lower o0 <> o0) ->
  preserveCase original corrected = spec_applyCase original corrected.
Proof.
  intros Hne Hcased; destruct corrected as [|c0 crest]; [congruence|].
  unfold preserveCase, spec_applyCase.
  destruct (str_eqb (toUpperCase original) original); [reflexivity|].
  destruct original as [|o0 o']; [reflexivity|].
  specialize (Hcased o0 o' eq_refl).
  destruct (is_upper_letter o0) eqn:U.
  - rewrite (upper_letter_fixed o0 U), (proj2 (str_eqb_eq _ _) eq_refl); reflexivity.
  - destruct (str_eqb (char_upper o0) [o0]) eqn:E; [|reflexivity].
    apply str_eqb_eq in E; exfalso; unfold is_upper_letter in U.
    destruct (char_dec (char_lower o0) o0) as [Hl|]; [|discriminate U].
    destruct Hcased; contradiction.
Qed.

Lemma preserveCase_cased_first_witness :
  preserveCase (s "Xbc") (s "abc") = spec_applyCase (s "Xbc") (s "abc").
Proof.
  apply preserveCase_cased_first; [discriminate|].
  intros o0 o' E; injection E as <- _; right; discriminate.
Defined.

(** X9 ([getCorrection]): with no [hasWord] and no dataset loaded, every
    word is returned unchanged, the cache stays empty, and the background
    load is started exactly for a non-empty word when [fetch] exists. *)
Theorem getCorrection_unloaded (fetch_ok : bool) (rawWord : str) :
  getCorrection None fetch_ok rawWord None =
  mkOutcome rawWord None (match rawWord with [] => false | _ => fetch_ok end).
Proof.
  destruct rawWord as [|c r]; [reflexivity|].
  unfold getCorrection, correction_with.
  change (isWord_of None None) with (fun _ : str => false); cbv beta iota zeta.
  now rewrite hits_none.
Qed.

(** X10 ([getCorrection]): with no [hasWord] and a loaded dataset, the result
    is [correct] with membership in the dataset as the oracle, no load is
    started and the cache is unchanged. *)
Theorem getCorrection_with_dataset (ws : list str) (fetch_ok : bool) (rawWord : str) :
  getCorrection (Some ws) fetch_ok rawWord None =
  mkOutcome (correct rawWord (dict ws)) (Some ws) false.
Proof.
  destruct (getCorrection_dataset ws fetch_ok rawWord) as (H1 & H2 & H3).
  destruct (getCorrection (Some ws) fetch_ok rawWord None); simpl in *.
  now subst.
Qed.

(** X11 ([loadWordsDataset]): the dataset is fetched at most once. A failed
    fetch leaves the cache empty; otherwise the returned set is the cached
    one, and every later call, with any URL and any fetch, returns that same
    set without fetching. *)
Theorem loadWordsDataset_once (fetch fetch' : str -> option str) (url url' : str)
    (cache : dataset) :
  let o := loadWordsDataset fetch url cache in
  match loaded o with
  | Some ws => cache_after_load o = Some ws /\
      loadWordsDataset fetch' url' (cache_after_load o) = mkLoad (Some ws) (Some ws) false
  | None => cache_after_load o = None /\ fetched o = true
  end.
Proof.
  destruct cache as [ws|]; simpl; [split; reflexivity|].
  destruct (fetch url); simpl; split; reflexivity.
Qed.

(** X12 ([loadWordsDataset] then [getCorrection]): after a successful load
    of [text], [getCorrection] without [hasWord] corrects against the parsed
    word set, starts no further load and keeps the cache. *)
Theorem getCorrection_after_load (fetch : str -> option str) (url text : str)
    (fetch_ok : bool) (rawWord : str) :
  fetch url = Some text ->
  let o := loadWordsDataset fetch url None in
  loaded o = Some (parse_words text) /\ fetched o = true /\
  getCorrection (cache_after_load o) fetch_ok rawWord None =
  mkOutcome (correct rawWord (dict (parse_words text))) (Some (parse_words text)) false.
Proof.
  intros Hf; simpl; rewrite Hf; simpl.
  split; [reflexivity|split; [reflexivity|]].
  destruct (getCorrection_dataset (parse_words text) fetch_ok rawWord) as (H1 & H2 & H3).
  destruct (getCorrection (Some (parse_words text)) fetch_ok rawWord None); simpl in *.
  now subst.
Qed.

Lemma getCorrection_after_load_witness :
  let fetch := fun u : str => if str_eqb u default_url then Some (s "Cool
cat") else None in
  fetch default_url = Some (s "Cool
cat") /\
  (let o := loadWordsDataset fetch default_url None in
   loaded o = Some (parse_words (s "Cool
cat")) /\ fetched o = true /\
   getCorrection (cache_after_load o) true (s "Coool") None =
   mkOutcome (correct (s "Coool") (dict (parse_words (s "Cool
cat")))) (Some (parse_words (s "Cool
cat"))) false).
Proof.
  intros fetch; split; [reflexivity|].
  apply getCorrection_after_load; reflexivity.
Defined.

(** X13 ([loadWordsDataset]): the parsed word set has no duplicates, and
    each entry is non-empty, lower-case, and neither starts nor ends with
    whitespace. *)
Theorem parse_words_invariants (text : str) :
  NoDup (parse_words text) /\
  forall w, In w (parse_words text) ->
    w <> [] /\ Forall lowfix w /\
    is_ws (hd space w) = false /\ is_ws (last w space) = false.
Proof.
  split; [apply NoDup_set_add_all, NoDup_nil|].
  intros w Hw; apply in_parse_words in Hw as (Hne & l & _ & ->).
  split; [exact Hne|split; [apply toLowerCase_lowfix|]].
  destruct (trim_ends l) as [E|[Hh Hl]]; [rewrite E in Hne; now destruct Hne|].
  unfold nows in Hh, Hl; unfold toLowerCase.
  destruct (trim l) as [|x t]; [now destruct Hne|].
  split; [simpl; now rewrite is_ws_lower|].
  change space with (char_lower space); rewrite last_map, is_ws_lower.
  exact Hl.
Qed.

(** X14 ([loadWordsDataset]): a string belongs to the parsed set exactly
    when it is non-empty and is the trimmed, lower-cased form of some line
    of the text (lines separated by ["\n"] or ["\r\n"]). *)
Theorem parse_words_members (text w : str) :
  In w (parse_words text) <->
  w <> [] /\ exists l, In l (split_lines text) /\ w = toLowerCase (trim l).
Proof. apply in_parse_words. Qed.

(** X15 ([loadWordsDataset]): a list of non-empty, lower-case words without
    whitespace, joined by ["\n"] or by ["\r\n"], parses back to the same
    words in the same order, duplicates dropped after their first
    occurrence. *)
Theorem parse_words_roundtrip (ws : list str) :
  Forall (fun w => w <> [] /\ Forall lowfix w /\ Forall nows w) ws ->
  parse_words (join_lines [LF] ws) = set_add_all [] ws /\
  parse_words (join_lines [CR; LF] ws) = set_add_all [] ws.
Proof.
  intros H.
  assert (Hm : filter (fun w => match w with [] => false | _ => true end)
                 (map (fun l => toLowerCase (trim l)) ws) = ws).
  { induction H as [|w ws (Hne & Hlow & Hnw) _ IH]; [reflexivity|].
    simpl; rewrite trim_nows, toLowerCase_id by assumption.
    destruct w as [|c w]; [congruence|]; now rewrite IH. }
  destruct ws as [|w ws]; [split; reflexivity|].
  assert (Hf : Forall (Forall nows) (w :: ws)).
  { eapply Forall_impl; [|exact H]; intros x (_ & _ & Hx); exact Hx. }
  unfold parse_words; split;
    (rewrite split_join; [now rewrite Hm| |discriminate|exact Hf]); auto.
Qed.

Lemma parse_words_roundtrip_witness :
  Forall (fun w => w <> [] /\ Forall lowfix w /\ Forall nows w)
    [s "cat"; s "dog"; s "cat"] /\
  parse_words (join_lines [LF] [s "cat"; s "dog"; s "cat"]) =
    set_add_all [] [s "cat"; s "dog"; s "cat"] /\
  parse_words (join_lines [CR; LF] [s "cat"; s "dog"; s "cat"]) =
    set_add_all [] [s "cat"; s "dog"; s "cat"].
Proof.
  assert (H : Forall (fun w => w <> [] /\ Forall lowfix w /\ Forall nows w)
                [s "cat"; s "dog"; s "cat"]).
  { repeat constructor; discriminate. }
  split; [exact H|apply parse_words_roundtrip; exact H].
Defined.
